(** * seaf-fuse: the read-only FUSE adapter of Seafile

    A shallow embedding of [fuse/seaf-fuse.c]: the path resolver
    [parse_fuse_path] and the four VFS operations [seaf_fuse_getattr],
    [seaf_fuse_readdir], [seaf_fuse_open] and [seaf_fuse_read].

    C strings are modelled by [string] (the characters before the
    terminating NUL), [int], [guint32], [size_t] and [off_t] values by [Z],
    a possibly-NULL pointer by [option].  The process-wide [seaf] session
    is passed explicitly.  Heap strings, reference counts and the warning
    log are threaded through a small state monad, so that what a call
    leaves behind can be stated. *)

From Stdlib Require Import ZArith Ascii String List Lia.
From stdpp Require Import base option list gmap strings.

Local Open Scope string_scope.
Local Open Scope Z_scope.

(** ** Constants of the system headers *)

Module Sys.
(** <errno.h> and <fcntl.h>, Linux values. *)
Definition ENOENT : Z := 2.
Definition EACCES : Z := 13.
Definition O_RDONLY : Z := 0.
Definition O_WRONLY : Z := 1.

(** <sys/stat.h>: the file-type bits of a mode word (octal 0170000,
    0100000 and 0040000). *)
Definition S_IFMT : Z := 61440.
Definition S_IFREG : Z := 32768.
Definition S_IFDIR : Z := 16384.

Definition S_ISREG (mode : Z) : bool := Z.land mode S_IFMT =? S_IFREG.
End Sys.
Export Sys.

(** ** C string primitives *)

Module CStr.
(** [strchr s c]: the offset of the first [c] in [s] (the C function
    returns the pointer [s + offset]), [None] for a NULL result. *)
Fixpoint strchr (s : string) (c : ascii) : option nat :=
  match s with
  | EmptyString => None
  | String a s' =>
      if Ascii.eqb a c then Some O else option_map S (strchr s' c)
  end.

Definition strlen (s : string) : nat := String.length s.

(** Pointer arithmetic [s + n] on a string. *)
Fixpoint advance (s : string) (n : nat) : string :=
  match n, s with
  | O, _ => s
  | S n', String _ s' => advance s' n'
  | S _, EmptyString => EmptyString
  end.

(** The characters [g_strndup (s, n)] copies: at most [n], stopping at
    the end of [s]. *)
Fixpoint prefix (s : string) (n : nat) : string :=
  match n, s with
  | S n', String a s' => String a (prefix s' n')
  | _, _ => EmptyString
  end.

Definition strcmp_eq (a b : string) : bool := String.eqb a b.

Definition slash : ascii := "/"%char.
Definition newline : string := String (ascii_of_nat 10) EmptyString.
End CStr.
Export CStr.

(** ** The runtime a call runs in *)

(** What this layer holds at a point in time: heap strings obtained from
    [g_strdup], [g_strndup] or a store lookup and not yet passed to
    [g_free]; references on repository and commit objects not yet dropped
    by [seaf_repo_unref] and [seaf_commit_unref]; and the warnings written
    so far. *)
Record Runtime := mkRuntime {
  live_strings : nat;
  repo_refs : nat;
  commit_refs : nat;
  log : list string
}.

Definition M (A : Type) : Type := Runtime -> A * Runtime.

Definition ret {A} (a : A) : M A := fun rt => (a, rt).
Definition bind {A B} (m : M A) (k : A -> M B) : M B :=
  fun rt => let (a, rt') := m rt in k a rt'.

Declare Scope m_scope.
Delimit Scope m_scope with m.
Notation "x <- m ;; k" := (bind m (fun x => k))
  (at level 100, m at next level, right associativity) : m_scope.
Notation "m ;;; k" := (bind m (fun _ => k))
  (at level 100, right associativity) : m_scope.
Local Open Scope m_scope.

Definition value {A} (m : M A) (rt : Runtime) : A := fst (m rt).
Definition after {A} (m : M A) (rt : Runtime) : Runtime := snd (m rt).

Definition alloc_string : M unit := fun rt =>
  (tt, mkRuntime (S (live_strings rt)) (repo_refs rt) (commit_refs rt) (log rt)).

Definition g_strdup (s : string) : M string :=
  alloc_string ;;; ret s.

Definition g_strndup (s : string) (n : nat) : M string :=
  alloc_string ;;; ret (prefix s n).

(** [g_free (NULL)] does nothing. *)
Definition g_free (p : option string) : M unit := fun rt =>
  match p with
  | None => (tt, rt)
  | Some _ =>
      (tt, mkRuntime (Nat.pred (live_strings rt)) (repo_refs rt)
                     (commit_refs rt) (log rt))
  end.

Definition seaf_warning (msg : string) : M unit := fun rt =>
  (tt, mkRuntime (live_strings rt) (repo_refs rt) (commit_refs rt)
                 (log rt ++ [msg])%list).

(** ** Path resolver *)

(** The pointer is advanced by one when the first character is the
    separator. *)
Definition skip_leading_slash (path : string) : string :=
  match path with
  | String a rest => if Ascii.eqb a slash then rest else path
  | EmptyString => path
  end.

Inductive parsed : Type :=
| ParseError
| Parsed (repo_id repo_path : string).

(** [parse_fuse_path]: the return value [-1] is [ParseError]; on [0] the
    two out-parameters are the arguments of [Parsed]. *)
Definition parse_fuse_path (path : string) : M parsed :=
  let path := skip_leading_slash path in
  match strchr path slash with
  | None =>
      if (strlen path <? 36)%nat then
        seaf_warning ("Invalid input path: " ++ path ++ "." ++ newline) ;;;
        ret ParseError
      else
        repo_id <- g_strndup path 36 ;;
        repo_path <- g_strdup "/" ;;
        ret (Parsed repo_id repo_path)
  | Some p =>
      if (p <? 36)%nat then
        seaf_warning ("Invalid input path: " ++ path ++ "." ++ newline) ;;;
        ret ParseError
      else
        repo_id <- g_strndup path 36 ;;
        repo_path <- g_strdup (advance path (S p)) ;;
        ret (Parsed repo_id repo_path)
  end.

(** ** The session and its stores *)

Record SeafBranch := mkBranch { commit_id : string }.

(** A repository object of the registry; [head] is its current branch. *)
Record SeafRepo := mkRepo { id : string; head : SeafBranch }.

Record SeafCommit := mkCommit { root_id : string }.

(** A file object: the bytes its block list stands for. *)
Record Seafile := mkSeafile { contents : list Byte.byte }.

(** The stores behind [seaf->repo_mgr], [seaf->commit_mgr] and
    [seaf->fs_mgr].  The tree walk of the object store is a lookup from a
    root object and a path to an object id and a mode word. *)
Record SeafileSession := mkSession {
  repo_mgr : gmap string SeafRepo;
  commit_mgr : gmap string SeafCommit;
  fs_path_to_obj_id : string -> string -> option (string * Z);
  fs_seafile_id_by_path : string -> string -> option string;
  fs_seafile : string -> option Seafile;
  fs_dirents : string -> string -> option (list string)
}.

Record fuse_file_info := mkInfo { flags : Z; fh : Z }.

Section Stores.
Variable seaf : SeafileSession.

(** Modelled from the spec: [seaf_repo_manager_get_repo] of the
    repository manager, which is not part of this file.  A registry
    lookup by identifier; it hands out a new reference on the repository
    it finds. *)
Definition seaf_repo_manager_get_repo (repo_id : string) : M (option SeafRepo) :=
  fun rt =>
    match repo_mgr seaf !! repo_id with
    | None => (None, rt)
    | Some r =>
        (Some r, mkRuntime (live_strings rt) (S (repo_refs rt))
                           (commit_refs rt) (log rt))
    end.

(** Modelled from the spec: [seaf_repo_unref], which is not part of this
    file.  It drops one reference; on NULL it does nothing. *)
Definition seaf_repo_unref (repo : option SeafRepo) : M unit := fun rt =>
  match repo with
  | None => (tt, rt)
  | Some _ =>
      (tt, mkRuntime (live_strings rt) (Nat.pred (repo_refs rt))
                     (commit_refs rt) (log rt))
  end.

(** Modelled from the spec: [seaf_commit_manager_get_commit] of the
    commit manager, which is not part of this file.  A lookup by commit
    id that hands out a new reference on the commit it finds. *)
Definition seaf_commit_manager_get_commit (cid : string) : M (option SeafCommit) :=
  fun rt =>
    match commit_mgr seaf !! cid with
    | None => (None, rt)
    | Some c =>
        (Some c, mkRuntime (live_strings rt) (repo_refs rt)
                           (S (commit_refs rt)) (log rt))
    end.

(** Modelled from the spec: [seaf_commit_unref], which is not part of
    this file.  It drops one reference; on NULL it does nothing. *)
Definition seaf_commit_unref (commit : option SeafCommit) : M unit := fun rt =>
  match commit with
  | None => (tt, rt)
  | Some _ =>
      (tt, mkRuntime (live_strings rt) (repo_refs rt)
                     (Nat.pred (commit_refs rt)) (log rt))
  end.

(** Modelled from the spec: [seaf_fs_manager_path_to_obj_id] of the
    object store, which is not part of this file.  The tree walk from a
    root object along a path; the object id comes back as a heap string
    the caller frees, together with the mode word. *)
Definition seaf_fs_manager_path_to_obj_id (root path : string)
  : M (option (string * Z)) :=
  match fs_path_to_obj_id seaf root path with
  | None => ret None
  | Some (oid, mode) => alloc_string ;;; ret (Some (oid, mode))
  end.

(** Modelled from the spec: [seaf_fs_manager_get_seafile_id_by_path],
    which is not part of this file.  The walk that yields the id of the
    file at a path, as a heap string the caller frees. *)
Definition seaf_fs_manager_get_seafile_id_by_path (root path : string)
  : M (option string) :=
  match fs_seafile_id_by_path seaf root path with
  | None => ret None
  | Some fid => alloc_string ;;; ret (Some fid)
  end.

(** Modelled from the spec: [seaf_fs_manager_get_seafile], which is not
    part of this file.  The file object of a file id. *)
Definition seaf_fs_manager_get_seafile (file_id : string) : M (option Seafile) :=
  ret (fs_seafile seaf file_id).

(** ** open *)

(** The [out:] label of [seaf_fuse_open]. *)
Definition open_out (repo_id repo_path : string) (repo : option SeafRepo)
    (commit : option SeafCommit) (r : Z) : M Z :=
  g_free (Some repo_id) ;;;
  g_free (Some repo_path) ;;;
  seaf_repo_unref repo ;;;
  seaf_commit_unref commit ;;;
  ret r.

(** The result is the returned [int] and the file-info structure as the
    call leaves it. *)
Definition seaf_fuse_open (path : string) (info : fuse_file_info)
  : M (Z * fuse_file_info) :=
  if negb (Z.land (flags info) 3 =? O_RDONLY) then ret (- EACCES, info)
  else
    r <- parse_fuse_path path ;;
    match r with
    | ParseError => ret (- ENOENT, info)
    | Parsed repo_id repo_path =>
        repo <- seaf_repo_manager_get_repo repo_id ;;
        match repo with
        | None =>
            seaf_warning ("Failed to get repo " ++ repo_id ++ "." ++ newline) ;;;
            v <- open_out repo_id repo_path None None (- ENOENT) ;;
            ret (v, info)
        | Some rp =>
            let branch := head rp in
            commit <- seaf_commit_manager_get_commit (commit_id branch) ;;
            match commit with
            | None =>
                seaf_warning ("Failed to get commit "
                              ++ prefix (commit_id branch) 8 ++ "." ++ newline) ;;;
                v <- open_out repo_id repo_path repo None (- ENOENT) ;;
                ret (v, info)
            | Some c =>
                o <- seaf_fs_manager_path_to_obj_id (root_id c) repo_path ;;
                match o with
                | None =>
                    seaf_warning ("Path " ++ repo_path ++ " doesn't exist in repo "
                                  ++ repo_id ++ "." ++ newline) ;;;
                    v <- open_out repo_id repo_path repo commit (- ENOENT) ;;
                    ret (v, info)
                | Some (oid, mode) =>
                    g_free (Some oid) ;;;
                    if negb (S_ISREG mode) then ret (- EACCES, info)
                    else
                      v <- open_out repo_id repo_path repo commit 0 ;;
                      ret (v, info)
                end
            end
        end
    end.

(** ** read *)

(** Modelled from the spec: [read_file] of fuse/file.c, which is not part
    of this file.  It produces [min (size, bytes available from offset)]
    bytes at the start of the buffer and returns their number, 0 at the
    end of the file. *)
Definition read_file (file : Seafile) (buf : list Byte.byte) (size offset : Z)
    (info : fuse_file_info) : M (Z * list Byte.byte) :=
  let data := take (Z.to_nat size) (drop (Z.to_nat offset) (contents file)) in
  ret (Z.of_nat (length data), (data ++ drop (length data) buf)%list).

(** The [out:] label of [seaf_fuse_read]. *)
Definition read_out (repo_id repo_path : string) (file_id : option string)
    (repo : option SeafRepo) (commit : option SeafCommit) (r : Z) : M Z :=
  g_free (Some repo_id) ;;;
  g_free (Some repo_path) ;;;
  g_free file_id ;;;
  seaf_repo_unref repo ;;;
  seaf_commit_unref commit ;;;
  ret r.

(** The result is the returned [int] and the buffer as the call leaves
    it. *)
Definition seaf_fuse_read (path : string) (buf : list Byte.byte)
    (size offset : Z) (info : fuse_file_info) : M (Z * list Byte.byte) :=
  if negb (Z.land (flags info) 3 =? O_RDONLY) then ret (- EACCES, buf)
  else
    r <- parse_fuse_path path ;;
    match r with
    | ParseError => ret (- ENOENT, buf)
    | Parsed repo_id repo_path =>
        repo <- seaf_repo_manager_get_repo repo_id ;;
        match repo with
        | None =>
            seaf_warning ("Failed to get repo " ++ repo_id ++ "." ++ newline) ;;;
            v <- read_out repo_id repo_path None None None (- ENOENT) ;;
            ret (v, buf)
        | Some rp =>
            let branch := head rp in
            commit <- seaf_commit_manager_get_commit (commit_id branch) ;;
            match commit with
            | None =>
                seaf_warning ("Failed to get commit "
                              ++ prefix (commit_id branch) 8 ++ "." ++ newline) ;;;
                v <- read_out repo_id repo_path None repo None (- ENOENT) ;;
                ret (v, buf)
            | Some c =>
                file_id <- seaf_fs_manager_get_seafile_id_by_path
                             (root_id c) repo_path ;;
                match file_id with
                | None =>
                    seaf_warning ("Path " ++ repo_path ++ " doesn't exist in repo "
                                  ++ repo_id ++ "." ++ newline) ;;;
                    v <- read_out repo_id repo_path None repo commit (- ENOENT) ;;
                    ret (v, buf)
                | Some fid =>
                    file <- seaf_fs_manager_get_seafile fid ;;
                    match file with
                    | None =>
                        v <- read_out repo_id repo_path file_id repo commit
                               (- ENOENT) ;;
                        ret (v, buf)
                    | Some f =>
                        nb <- read_file f buf size offset info ;;
                        v <- read_out repo_id repo_path file_id repo commit
                               (fst nb) ;;
                        ret (v, snd nb)
                    end
                end
            end
        end
    end.

(** ** getattr *)

Record stat := mkStat { st_mode : Z; st_nlink : Z; st_size : Z }.

(** [memset (stbuf, 0, sizeof (struct stat))]. *)
Definition zero_stat : stat := mkStat 0 0 0.

(** Releases what the resolve, locate and walk stages acquired. *)
Definition release_handles (repo_id repo_path : string) (obj_id : option string)
    (repo : option SeafRepo) (commit : option SeafCommit) : M unit :=
  g_free (Some repo_id) ;;;
  g_free (Some repo_path) ;;;
  g_free obj_id ;;;
  seaf_repo_unref repo ;;;
  seaf_commit_unref commit.

(** Modelled from the spec: [getattr_root], which is not part of this
    file.  The mount root is reported as a directory. *)
Definition getattr_root (path : string) (stbuf : stat) : M (Z * stat) :=
  ret (0, mkStat S_IFDIR (st_nlink stbuf) (st_size stbuf)).

(** Modelled from the spec: [getattr_repo], which is not part of this
    file.  It runs resolve, locate and walk, fills the stat structure
    from the resolved mode and, for a regular file, the size of the file
    object; any failing stage gives [-ENOENT]; what was acquired is
    released on every exit. *)
Definition getattr_repo (path : string) (stbuf : stat) : M (Z * stat) :=
  r <- parse_fuse_path path ;;
  match r with
  | ParseError => ret (- ENOENT, stbuf)
  | Parsed repo_id repo_path =>
      repo <- seaf_repo_manager_get_repo repo_id ;;
      match repo with
      | None =>
          release_handles repo_id repo_path None None None ;;;
          ret (- ENOENT, stbuf)
      | Some rp =>
          commit <- seaf_commit_manager_get_commit (commit_id (head rp)) ;;
          match commit with
          | None =>
              release_handles repo_id repo_path None repo None ;;;
              ret (- ENOENT, stbuf)
          | Some c =>
              o <- seaf_fs_manager_path_to_obj_id (root_id c) repo_path ;;
              match o with
              | None =>
                  release_handles repo_id repo_path None repo commit ;;;
                  ret (- ENOENT, stbuf)
              | Some (oid, mode) =>
                  if S_ISREG mode then
                    file <- seaf_fs_manager_get_seafile oid ;;
                    release_handles repo_id repo_path (Some oid) repo commit ;;;
                    match file with
                    | None => ret (- ENOENT, stbuf)
                    | Some f =>
                        ret (0, mkStat mode (st_nlink stbuf)
                                  (Z.of_nat (length (contents f))))
                    end
                  else
                    release_handles repo_id repo_path (Some oid) repo commit ;;;
                    ret (0, mkStat mode (st_nlink stbuf) (st_size stbuf))
              end
          end
      end
  end.

(** [path + 1]. *)
Definition skip1 (path : string) : string := advance path 1.

(** The result is the returned [int] and the stat structure as the call
    leaves it. *)
Definition seaf_fuse_getattr (path : string) (stbuf : stat) : M (Z * stat) :=
  let stbuf := zero_stat in
  if strcmp_eq path "/" then getattr_root path stbuf
  else getattr_repo (skip1 path) stbuf.

(** ** readdir *)

Section Readdir.
(** The directory buffer and the callback that adds a name to it. *)
Context {B : Type}.
Variable filler : B -> string -> B.

(** Modelled from the spec: [readdir_root], which is not part of this
    file.  It emits one entry per repository of the registry, named by
    the repository identifier. *)
Definition readdir_root (path : string) (buf : B) (offset : Z)
    (info : fuse_file_info) : M (Z * B) :=
  ret (0, foldl filler buf (map_to_list (repo_mgr seaf)).*1).

(** Modelled from the spec: [readdir_repo], which is not part of this
    file.  It runs resolve and locate, then emits one entry per child of
    the directory at the in-repository path; [-ENOENT] when the path does
    not resolve to a directory. *)
Definition readdir_repo (path : string) (buf : B) (offset : Z)
    (info : fuse_file_info) : M (Z * B) :=
  r <- parse_fuse_path path ;;
  match r with
  | ParseError => ret (- ENOENT, buf)
  | Parsed repo_id repo_path =>
      repo <- seaf_repo_manager_get_repo repo_id ;;
      match repo with
      | None =>
          release_handles repo_id repo_path None None None ;;;
          ret (- ENOENT, buf)
      | Some rp =>
          commit <- seaf_commit_manager_get_commit (commit_id (head rp)) ;;
          match commit with
          | None =>
              release_handles repo_id repo_path None repo None ;;;
              ret (- ENOENT, buf)
          | Some c =>
              release_handles repo_id repo_path None repo commit ;;;
              match fs_dirents seaf (root_id c) repo_path with
              | None => ret (- ENOENT, buf)
              | Some names => ret (0, foldl filler buf names)
              end
          end
      end
  end.

(** The two results of [filler] are not looked at. *)
Definition seaf_fuse_readdir (path : string) (buf : B) (offset : Z)
    (info : fuse_file_info) : M (Z * B) :=
  let buf := filler buf "." in
  let buf := filler buf ".." in
  (* root dir: we display all libraries in root dir *)
  if strcmp_eq path "/" then readdir_root path buf offset info
  else readdir_repo (skip1 path) buf offset info.

End Readdir.

End Stores.

(** A directory buffer that records the names in the order they are
    added. *)
Definition record_entry (buf : list string) (name : string) : list string :=
  (buf ++ [name])%list.

(** ** A small session to run the operations on *)

Module Demo.
Definition rid : string := "3b2e1f0a-7c4d-4e5f-8a9b-0c1d2e3f4a5b".

Definition readme : Seafile :=
  mkSeafile (replicate 120 Byte.x61).

Definition walk (root path : string) : option (string * Z) :=
  if negb (String.eqb root "root-0") then None
  else if String.eqb path "" || String.eqb path "/"
       then Some ("root-0", Z.lor S_IFDIR 493)
  else if String.eqb path "docs" then Some ("dir-1", Z.lor S_IFDIR 493)
  else if String.eqb path "docs/readme.txt"
       then Some ("file-1", Z.lor S_IFREG 420)
  else None.

Definition file_id_of (root path : string) : option string :=
  match walk root path with
  | Some (oid, mode) => if S_ISREG mode then Some oid else None
  | None => None
  end.

Definition dirents (root path : string) : option (list string) :=
  if negb (String.eqb root "root-0") then None
  else if String.eqb path "" || String.eqb path "/" then Some ["docs"]
  else if String.eqb path "docs" then Some ["readme.txt"]
  else None.

Definition session : SeafileSession :=
  mkSession {[ rid := mkRepo rid (mkBranch "c0ffee00c0ffee00") ]}
            {[ "c0ffee00c0ffee00" := mkCommit "root-0" ]}
            walk file_id_of
            (fun fid => if String.eqb fid "file-1" then Some readme else None)
            dirents.

Definition rt0 : Runtime := mkRuntime 0 0 0 [].
Definition rdonly : fuse_file_info := mkInfo O_RDONLY 0.
Definition wronly : fuse_file_info := mkInfo O_WRONLY 0.
End Demo.

(** ** Vocabulary of the statements *)

(** What a runtime holds, the warning log apart. *)
Definition holdings (rt : Runtime) : nat * nat * nat :=
  (live_strings rt, repo_refs rt, commit_refs rt).

(** A repository identifier as it stands in a virtual path: one path
    component of 36 characters. *)
Definition repo_id_token (s : string) : Prop :=
  strlen s = 36%nat /\ strchr s slash = None.

Definition begins_with_slash (s : string) : bool :=
  match s with
  | String a _ => Ascii.eqb a slash
  | EmptyString => false
  end.

Ltac unfold_ops :=
  unfold seaf_fuse_open, seaf_fuse_read, seaf_fuse_getattr, getattr_root,
    getattr_repo, seaf_fuse_readdir, readdir_root, readdir_repo,
    open_out, read_out, release_handles, read_file, parse_fuse_path,
    seaf_repo_manager_get_repo, seaf_repo_unref,
    seaf_commit_manager_get_commit, seaf_commit_unref,
    seaf_fs_manager_path_to_obj_id, seaf_fs_manager_get_seafile_id_by_path,
    seaf_fs_manager_get_seafile, g_strdup, g_strndup, g_free, alloc_string,
    seaf_warning, holdings, value, after, bind, ret.

Ltac run_ops := unfold_ops; simpl; repeat (case_match; simplify_eq/=; try done).

(** * Properties *)

(** ** Strings *)

Lemma strchr_bound s c p : strchr s c = Some p -> (p < strlen s)%nat.
Proof.
  unfold strlen. revert p.
  induction s as [|a s IH]; intros p; simpl; [discriminate|].
  destruct (Ascii.eqb a c).
  - intros [= <-]. lia.
  - destruct (strchr s c) as [q|]; simpl; [|discriminate].
    intros [= <-]. specialize (IH q eq_refl). lia.
Qed.

Lemma strchr_append s c t :
  strchr s c = None ->
  strchr (s ++ String c t) c = Some (strlen s).
Proof.
  induction s as [|a s IH]; simpl.
  - intros _. now rewrite Ascii.eqb_refl.
  - destruct (Ascii.eqb a c); [discriminate|].
    destruct (strchr s c); simpl; [discriminate|].
    intros _. now rewrite IH.
Qed.

Lemma strchr_first s c : strchr (String c s) c = Some O.
Proof. simpl. now rewrite Ascii.eqb_refl. Qed.

Lemma prefix_append s t : prefix (s ++ t) (strlen s) = s.
Proof. induction s as [|a s IH]; simpl; [now destruct t|now rewrite IH]. Qed.

Lemma prefix_whole s : prefix s (strlen s) = s.
Proof. induction s as [|a s IH]; simpl; [reflexivity|now rewrite IH]. Qed.

Lemma advance_append s t : advance (s ++ t) (strlen s) = t.
Proof. induction s as [|a s IH]; simpl; [now destruct t|exact IH]. Qed.

Lemma advance_past_separator s c t :
  advance (s ++ String c t) (S (strlen s)) = t.
Proof. induction s as [|a s IH]; simpl; [now destruct t|exact IH]. Qed.

Lemma strlen_append s t : strlen (s ++ t) = (strlen s + strlen t)%nat.
Proof. unfold strlen. induction s as [|a s IH]; simpl; [reflexivity|now rewrite IH]. Qed.

Lemma token_no_leading_slash s : strchr s slash = None -> skip_leading_slash s = s.
Proof.
  destruct s as [|a s]; simpl; [reflexivity|].
  now destruct (Ascii.eqb a slash).
Qed.

Lemma skip_leading_slash_cons s : skip_leading_slash (String slash s) = s.
Proof. reflexivity. Qed.

(** ** The path resolver *)

(** [parse_fuse_path] on a path without a separator after the leading
    one. *)
Lemma parse_no_separator path rt :
  strchr (skip_leading_slash path) slash = None ->
  value (parse_fuse_path path) rt =
    if (strlen (skip_leading_slash path) <? 36)%nat then ParseError
    else Parsed (prefix (skip_leading_slash path) 36) "/".
Proof.
  intros H. unfold parse_fuse_path. rewrite H.
  destruct (strlen (skip_leading_slash path) <? 36)%nat; reflexivity.
Qed.

(** [parse_fuse_path] on a path whose first separator after the leading
    one is at offset [p]. *)
Lemma parse_separator path p rt :
  strchr (skip_leading_slash path) slash = Some p ->
  value (parse_fuse_path path) rt =
    if (p <? 36)%nat then ParseError
    else Parsed (prefix (skip_leading_slash path) 36)
                (advance (skip_leading_slash path) (S p)).
Proof.
  intros H. unfold parse_fuse_path. rewrite H.
  destruct (p <? 36)%nat; reflexivity.
Qed.

(** The resolved value does not depend on the runtime. *)
Lemma parse_value_runtime path rt rt' :
  value (parse_fuse_path path) rt = value (parse_fuse_path path) rt'.
Proof.
  destruct (strchr (skip_leading_slash path) slash) as [p|] eqn:E.
  - now rewrite !(parse_separator _ p).
  - now rewrite !parse_no_separator.
Qed.

Lemma parse_token_rest id rest rt :
  repo_id_token id ->
  value (parse_fuse_path (id ++ String slash rest)) rt = Parsed id rest.
Proof.
  intros [Hlen Hno].
  assert (Hs : skip_leading_slash (id ++ String slash rest) = id ++ String slash rest).
  { destruct id as [|a id]; [discriminate|]. simpl in *.
    destruct (Ascii.eqb a slash); [discriminate|reflexivity]. }
  rewrite (parse_separator _ (strlen id)).
  - rewrite Hs, advance_past_separator.
    rewrite Hlen at 1. rewrite Nat.ltb_irrefl.
    now rewrite <- Hlen, prefix_append.
  - rewrite Hs. now apply strchr_append.
Qed.

Lemma parse_token id rt :
  repo_id_token id ->
  value (parse_fuse_path id) rt = Parsed id "/".
Proof.
  intros [Hlen Hno].
  rewrite parse_no_separator; rewrite (token_no_leading_slash _ Hno); [|exact Hno].
  rewrite Hlen. simpl. rewrite <- Hlen. now rewrite prefix_whole.
Qed.

Lemma parse_leading_slash s :
  begins_with_slash s = false ->
  parse_fuse_path (String slash s) = parse_fuse_path s.
Proof.
  intros H. unfold parse_fuse_path. rewrite skip_leading_slash_cons.
  replace (skip_leading_slash s) with s; [reflexivity|].
  destruct s as [|a s]; simpl in *; [reflexivity|now rewrite H].
Qed.

(** C3, as the code has it: a virtual path with fewer than 36 characters
    after its leading separator is stripped does not resolve; the
    resolver answers [ParseError]. *)
Theorem parse_short_path_fails path rt :
  (strlen (skip_leading_slash path) < 36)%nat ->
  value (parse_fuse_path path) rt = ParseError.
Proof.
  intros Hshort.
  destruct (strchr (skip_leading_slash path) slash) as [p|] eqn:E.
  - rewrite (parse_separator _ p) by exact E.
    apply strchr_bound in E.
    destruct (Nat.ltb_spec p 36); [reflexivity|lia].
  - rewrite parse_no_separator by exact E.
    destruct (Nat.ltb_spec (strlen (skip_leading_slash path)) 36);
      [reflexivity|lia].
Qed.

Lemma parse_short_path_fails_witness :
  value (parse_fuse_path "/short-id/x") Demo.rt0 = ParseError.
Proof. apply parse_short_path_fails. vm_compute. lia. Defined.

(** C3 as written fails at length 36: the bare identifier is shorter than
    37 characters and resolves. *)
Lemma parse_36_chars_resolves :
  (strlen (skip_leading_slash ("/" ++ Demo.rid)) < 37)%nat /\
  value (parse_fuse_path ("/" ++ Demo.rid)) Demo.rt0 <> ParseError.
Proof. split; [vm_compute; lia|vm_compute; discriminate]. Qed.

(** C4, as the code has it: a path that is exactly the 36-character
    identifier, with or without the leading separator, resolves to that
    identifier and the in-repository path "/"; with one trailing
    separator it resolves to that identifier and the empty in-repository
    path, which is what follows the separator. *)
Theorem parse_bare_identifier id rt :
  repo_id_token id ->
  value (parse_fuse_path id) rt = Parsed id "/" /\
  value (parse_fuse_path ("/" ++ id)) rt = Parsed id "/" /\
  value (parse_fuse_path (id ++ "/")) rt = Parsed id "" /\
  value (parse_fuse_path ("/" ++ id ++ "/")) rt = Parsed id "".
Proof.
  intros Hid.
  assert (Hb : begins_with_slash id = false).
  { destruct Hid as [Hlen Hno]. destruct id as [|a id]; [reflexivity|].
    simpl in *. now destruct (Ascii.eqb a slash). }
  assert (Hb' : begins_with_slash (id ++ "/") = false).
  { destruct id as [|a id]; [now destruct Hid|exact Hb]. }
  repeat split.
  - now apply parse_token.
  - change ("/" ++ id) with (String slash id).
    rewrite parse_leading_slash by exact Hb. now apply parse_token.
  - now apply (parse_token_rest id "").
  - change ("/" ++ id ++ "/") with (String slash (id ++ "/")).
    rewrite parse_leading_slash by exact Hb'.
    now apply (parse_token_rest id "").
Qed.

Lemma parse_bare_identifier_witness :
  value (parse_fuse_path ("/" ++ Demo.rid)) Demo.rt0 = Parsed Demo.rid "/" /\
  value (parse_fuse_path ("/" ++ Demo.rid ++ "/")) Demo.rt0 = Parsed Demo.rid "".
Proof.
  assert (H : repo_id_token Demo.rid) by (split; reflexivity).
  split; [apply (parse_bare_identifier Demo.rid Demo.rt0 H)
         |apply (parse_bare_identifier Demo.rid Demo.rt0 H)].
Defined.

(** C4 as written fails for the trailing separator: the in-repository
    path is then the empty string, not "/". *)
Lemma parse_trailing_separator_not_root :
  repo_id_token Demo.rid /\
  value (parse_fuse_path ("/" ++ Demo.rid ++ "/")) Demo.rt0
    <> Parsed Demo.rid "/".
Proof. split; [split; reflexivity|vm_compute; discriminate]. Qed.

(** C5: a path made of a 36-character identifier, a separator and a
    non-empty rest resolves; the repository identifier is that token and
    the in-repository path is the rest, unchanged, separators included. *)
Theorem parse_identifier_and_rest id rest rt :
  repo_id_token id ->
  rest <> "" ->
  value (parse_fuse_path (id ++ "/" ++ rest)) rt = Parsed id rest /\
  value (parse_fuse_path ("/" ++ id ++ "/" ++ rest)) rt = Parsed id rest.
Proof.
  intros Hid _.
  assert (Hb : begins_with_slash (id ++ "/" ++ rest) = false).
  { destruct Hid as [Hlen Hno]. destruct id as [|a id]; [discriminate|].
    simpl in *. now destruct (Ascii.eqb a slash). }
  split.
  - now apply parse_token_rest.
  - change ("/" ++ id ++ "/" ++ rest) with (String slash (id ++ "/" ++ rest)).
    rewrite parse_leading_slash by exact Hb. now apply parse_token_rest.
Qed.

Lemma parse_identifier_and_rest_witness :
  value (parse_fuse_path ("/" ++ Demo.rid ++ "/" ++ "docs/readme.txt")) Demo.rt0
    = Parsed Demo.rid "docs/readme.txt".
Proof.
  apply (parse_identifier_and_rest Demo.rid "docs/readme.txt" Demo.rt0).
  - split; reflexivity.
  - discriminate.
Defined.

(** C10: one leading separator is skipped and no more.  A path that does
    not begin with a separator resolves the same with a separator put in
    front of it; a path that begins with two separators does not
    resolve, its first component being empty. *)
Theorem parse_strips_one_separator :
  (forall s rt, begins_with_slash s = false ->
     parse_fuse_path ("/" ++ s) rt = parse_fuse_path s rt) /\
  (forall t rt, value (parse_fuse_path ("//" ++ t)) rt = ParseError).
Proof.
  split.
  - intros s rt Hs. change ("/" ++ s) with (String slash s).
    now rewrite parse_leading_slash.
  - intros t rt. change ("//" ++ t) with (String slash (String slash t)).
    rewrite (parse_separator _ 0); [reflexivity|].
    rewrite skip_leading_slash_cons. apply strchr_first.
Qed.

Lemma parse_strips_one_separator_witness :
  parse_fuse_path ("/" ++ Demo.rid) Demo.rt0 = parse_fuse_path Demo.rid Demo.rt0 /\
  value (parse_fuse_path ("//" ++ Demo.rid)) Demo.rt0 = ParseError.
Proof.
  split.
  - apply (proj1 parse_strips_one_separator). reflexivity.
  - apply (proj2 parse_strips_one_separator).
Defined.

(** ** The access-mode gate *)

(** C2: whatever the path, when the two low bits of the flags are not
    [O_RDONLY], open and read both answer [-EACCES]. *)
Theorem non_read_only_denied seaf path buf size offset info rt :
  Z.land (flags info) 3 <> O_RDONLY ->
  fst (value (seaf_fuse_open seaf path info) rt) = - EACCES /\
  fst (value (seaf_fuse_read seaf path buf size offset info) rt) = - EACCES.
Proof.
  intros H. apply Z.eqb_neq in H.
  unfold seaf_fuse_open, seaf_fuse_read, value. rewrite H.
  split; reflexivity.
Qed.

Lemma non_read_only_denied_witness :
  fst (value (seaf_fuse_open Demo.session ("/" ++ Demo.rid ++ "/docs/readme.txt")
                Demo.wronly) Demo.rt0) = - EACCES /\
  fst (value (seaf_fuse_read Demo.session ("/" ++ Demo.rid ++ "/docs/readme.txt")
                [] 1024 0 Demo.wronly) Demo.rt0) = - EACCES.
Proof. apply non_read_only_denied. vm_compute. discriminate. Defined.

(** ** open *)

(** C6: a read-only open answers [-ENOENT] when the path does not parse,
    the repository is not in the registry, the head commit is not in the
    commit store or the tree walk finds nothing; when the walk finds an
    object it answers 0 for a regular file and [-EACCES] for anything
    else. *)
Theorem open_read_only_outcome seaf path info rt :
  Z.land (flags info) 3 = O_RDONLY ->
  let status := fst (value (seaf_fuse_open seaf path info) rt) in
  (value (parse_fuse_path path) rt = ParseError -> status = - ENOENT) /\
  (forall id rp, value (parse_fuse_path path) rt = Parsed id rp ->
     (repo_mgr seaf !! id = None -> status = - ENOENT) /\
     (forall r, repo_mgr seaf !! id = Some r ->
        (commit_mgr seaf !! commit_id (head r) = None -> status = - ENOENT) /\
        (forall c, commit_mgr seaf !! commit_id (head r) = Some c ->
           (fs_path_to_obj_id seaf (root_id c) rp = None ->
              status = - ENOENT) /\
           (forall oid mode,
              fs_path_to_obj_id seaf (root_id c) rp = Some (oid, mode) ->
              status = if S_ISREG mode then 0 else - EACCES)))).
Proof.
  intros Hro status. subst status. apply Z.eqb_eq in Hro.
  unfold seaf_fuse_open, value, bind. rewrite Hro. cbn [negb]. cbv beta iota.
  destruct (parse_fuse_path path rt) as [v rt1]. cbn [fst].
  split; [intros ->; reflexivity|].
  intros id rp ->. unfold seaf_repo_manager_get_repo.
  split; [intros ->; reflexivity|].
  intros r ->. unfold seaf_commit_manager_get_commit.
  split; [intros ->; reflexivity|].
  intros c ->. unfold seaf_fs_manager_path_to_obj_id.
  split; [intros ->; reflexivity|].
  intros oid mode ->. simpl. now destruct (S_ISREG mode).
Qed.

Lemma open_read_only_outcome_witness :
  fst (value (seaf_fuse_open Demo.session ("/" ++ Demo.rid ++ "/docs/readme.txt")
                Demo.rdonly) Demo.rt0) = 0 /\
  fst (value (seaf_fuse_open Demo.session ("/" ++ Demo.rid ++ "/docs")
                Demo.rdonly) Demo.rt0) = - EACCES.
Proof.
  split.
  - refine (proj2 (proj2 (proj2 (proj2 (open_read_only_outcome Demo.session
      ("/" ++ Demo.rid ++ "/docs/readme.txt") Demo.rdonly Demo.rt0 eq_refl)
      Demo.rid "docs/readme.txt" eq_refl) _ eq_refl) _ eq_refl)
      "file-1" (Z.lor S_IFREG 420) eq_refl).
  - refine (proj2 (proj2 (proj2 (proj2 (open_read_only_outcome Demo.session
      ("/" ++ Demo.rid ++ "/docs") Demo.rdonly Demo.rt0 eq_refl)
      Demo.rid "docs" eq_refl) _ eq_refl) _ eq_refl)
      "dir-1" (Z.lor S_IFDIR 493) eq_refl).
Defined.

(** A successful open returns through the [out:] label: the file-info
    structure and the runtime are as they were. *)
Lemma open_success_restores seaf path info rt :
  fst (value (seaf_fuse_open seaf path info) rt) = 0 ->
  seaf_fuse_open seaf path info rt = ((0, info), rt).
Proof. destruct rt as [ls rr cr lg]. run_ops. Qed.

(** C9: a successful open leaves the file-info structure as it was given
    and leaves nothing behind in the runtime; a read that follows it runs
    as if the open had not taken place. *)
Theorem open_success_leaves_no_state seaf path info rt :
  fst (value (seaf_fuse_open seaf path info) rt) = 0 ->
  snd (value (seaf_fuse_open seaf path info) rt) = info /\
  after (seaf_fuse_open seaf path info) rt = rt /\
  forall path' buf size offset info',
    (seaf_fuse_open seaf path info ;;;
     seaf_fuse_read seaf path' buf size offset info') rt
    = seaf_fuse_read seaf path' buf size offset info' rt.
Proof.
  intros Hok. apply open_success_restores in Hok.
  unfold value, after, bind. rewrite Hok. repeat split.
Qed.

Lemma open_success_leaves_no_state_witness :
  after (seaf_fuse_open Demo.session ("/" ++ Demo.rid ++ "/docs/readme.txt")
           Demo.rdonly) Demo.rt0 = Demo.rt0.
Proof.
  apply (open_success_leaves_no_state Demo.session
           ("/" ++ Demo.rid ++ "/docs/readme.txt") Demo.rdonly Demo.rt0).
  reflexivity.
Defined.

(** ** What a call leaves held *)

(** read gives back the two strings, the file id, the repository and the
    commit on each of its ways out. *)
Lemma read_releases seaf path buf size offset info rt :
  holdings (after (seaf_fuse_read seaf path buf size offset info) rt)
  = holdings rt.
Proof. destruct rt as [ls rr cr lg]. run_ops. Qed.

(** open gives everything back unless it answers [-EACCES] for a path
    that resolved: then the two strings and both references stay held. *)
Lemma open_releases_or_keeps seaf path info rt :
  holdings (after (seaf_fuse_open seaf path info) rt) = holdings rt \/
  (fst (value (seaf_fuse_open seaf path info) rt) = - EACCES /\
   holdings (after (seaf_fuse_open seaf path info) rt)
   = (S (S (live_strings rt)), S (repo_refs rt), S (commit_refs rt))).
Proof.
  destruct rt as [ls rr cr lg].
  run_ops; (left; reflexivity) || (right; split; reflexivity).
Qed.

(** On a path that resolves to an object that is not a regular file, a
    read-only open returns without going through its [out:] label. *)
Lemma open_not_regular_keeps seaf path info rt id rp r c oid mode :
  Z.land (flags info) 3 = O_RDONLY ->
  value (parse_fuse_path path) rt = Parsed id rp ->
  repo_mgr seaf !! id = Some r ->
  commit_mgr seaf !! commit_id (head r) = Some c ->
  fs_path_to_obj_id seaf (root_id c) rp = Some (oid, mode) ->
  S_ISREG mode = false ->
  holdings (after (seaf_fuse_open seaf path info) rt)
  = (S (S (live_strings rt)), S (repo_refs rt), S (commit_refs rt)).
Proof.
  intros Hro Hp Hr Hc Hw Hm. apply Z.eqb_eq in Hro.
  destruct rt as [ls rr cr lg]. revert Hp.
  run_ops; intros; simplify_eq/=; try congruence;
    match goal with
    | H : negb _ = true |- _ => rewrite Hro in H; discriminate H
    | H : negb (S_ISREG _) = false |- _ => rewrite Hm in H; discriminate H
    end.
Qed.

(** C1 does not hold of open: opening the root directory of a repository
    read-only answers [-EACCES] and leaves the two path strings, the
    repository reference and the commit reference held. *)
Theorem open_on_directory_keeps_handles :
  seaf_fuse_open Demo.session ("/" ++ Demo.rid) Demo.rdonly Demo.rt0
  = ((- EACCES, Demo.rdonly), mkRuntime 2 1 1 []).
Proof. vm_compute. reflexivity. Qed.

(** ** readdir *)

Lemma foldl_record_entry names buf :
  foldl record_entry buf names = (buf ++ names)%list.
Proof.
  revert buf. induction names as [|n names IH]; intros buf; simpl.
  - now rewrite app_nil_r.
  - rewrite IH. unfold record_entry. now rewrite <- app_assoc.
Qed.

Lemma registry_names (m : gmap string SeafRepo) :
  NoDup (map_to_list m).*1 /\
  forall id, id ∈ (map_to_list m).*1 <-> is_Some (m !! id).
Proof.
  split; [apply NoDup_fst_map_to_list|].
  intros id. rewrite list_elem_of_fmap. split.
  - intros [[k r] [-> Hin]]. apply elem_of_map_to_list in Hin. now exists r.
  - intros [r Hr]. exists (id, r). split; [reflexivity|].
    now apply elem_of_map_to_list.
Qed.

(** C7: on every path the names readdir adds to the buffer begin with
    "." and ".."; on the mount root it answers 0 and the names that
    follow are the identifiers of the registry, each once, whatever the
    repositories contain. *)
Theorem readdir_dot_entries_first seaf path buf offset info rt :
  (exists rest,
     snd (value (seaf_fuse_readdir seaf record_entry path buf offset info) rt)
     = (buf ++ "." :: ".." :: rest)%list) /\
  (exists ids,
     value (seaf_fuse_readdir seaf record_entry "/" buf offset info) rt
     = (0, (buf ++ "." :: ".." :: ids)%list) /\
     NoDup ids /\
     length ids = size (repo_mgr seaf) /\
     forall id, id ∈ ids <-> is_Some (repo_mgr seaf !! id)).
Proof.
  split.
  - unfold_ops. simpl.
    repeat (case_match; simplify_eq/=);
      rewrite ?foldl_record_entry; unfold record_entry;
      rewrite <- ?app_assoc; simpl; eexists; reflexivity.
  - exists (map_to_list (repo_mgr seaf)).*1.
    split; [|split; [apply registry_names|split; [|apply registry_names]]].
    + unfold seaf_fuse_readdir, readdir_root, value, ret. simpl.
      rewrite foldl_record_entry. unfold record_entry.
      now rewrite <- !app_assoc.
    + now rewrite length_fmap, length_map_to_list.
Qed.

(** * Further properties of the resolver *)

Section ResolverFacts.

Lemma prefix_advance s n : s = prefix s n ++ advance s n.
Proof.
  revert s. induction n as [|n IH]; intros [|a s]; simpl; try reflexivity.
  change (String a s = String a (prefix s n ++ advance s n)).
  f_equal. apply IH.
Qed.

Lemma strlen_prefix s n : (n <= strlen s)%nat -> strlen (prefix s n) = n.
Proof.
  unfold strlen. revert s.
  induction n as [|n IH]; intros [|a s]; simpl; intros H; try reflexivity;
    try lia.
  rewrite IH; [reflexivity|lia].
Qed.

Lemma prefix_append_le s t n :
  (n <= strlen s)%nat -> prefix (s ++ t) n = prefix s n.
Proof.
  unfold strlen. revert s.
  induction n as [|n IH]; intros [|a s]; simpl; intros H; try reflexivity.
  - now destruct t.
  - lia.
  - rewrite IH; [reflexivity|lia].
Qed.

Lemma strchr_prefix_none s c n :
  strchr s c = None -> strchr (prefix s n) c = None.
Proof.
  revert s. induction n as [|n IH]; intros [|a s]; simpl; try reflexivity.
  destruct (Ascii.eqb a c); [discriminate|].
  destruct (strchr s c) eqn:E; [discriminate|].
  intros _. now rewrite IH.
Qed.

Lemma strchr_advance_none s c n :
  strchr s c = None -> strchr (advance s n) c = None.
Proof.
  revert s. induction n as [|n IH]; intros [|a s]; simpl; try reflexivity;
    try (intros H; exact H).
  destruct (Ascii.eqb a c); [discriminate|].
  destruct (strchr s c) eqn:E; [discriminate|].
  intros _. now apply IH.
Qed.

Lemma advance_0 s : advance s 0 = s.
Proof. now destruct s. Qed.

(** The string up to the first [c] has no [c], has the offset as its
    length, and the string is that part, [c], and what follows. *)
Lemma strchr_split s c p :
  strchr s c = Some p ->
  strchr (prefix s p) c = None /\
  strlen (prefix s p) = p /\
  s = prefix s p ++ String c (advance s (S p)).
Proof.
  unfold strlen. revert p.
  induction s as [|a s IH]; intros p; simpl; [discriminate|].
  destruct (Ascii.eqb_spec a c) as [->|Hne].
  - intros [= <-]. simpl. repeat split. now rewrite advance_0.
  - destruct (strchr s c) as [q|]; simpl; [|discriminate].
    intros [= <-]. destruct (IH q eq_refl) as (H1 & H2 & H3). simpl.
    apply Ascii.eqb_neq in Hne. rewrite Hne, H1, H2. simpl.
    repeat split.
    change (String a s = String a (prefix s q ++ String c (advance s (S q)))).
    now rewrite <- H3.
Qed.

Lemma prefix_prefix s p n : (n <= p)%nat -> prefix (prefix s p) n = prefix s n.
Proof.
  revert s p. induction n as [|n IH]; intros [|a s] [|p] H; simpl;
    try reflexivity; try lia.
  rewrite IH; [reflexivity|lia].
Qed.

Lemma component_not_stripped c t :
  strchr c slash = None -> c <> "" -> skip_leading_slash (c ++ t) = c ++ t.
Proof.
  intros Hno Hne. destruct c as [|a c]; [congruence|]. simpl in *.
  now destruct (Ascii.eqb a slash).
Qed.

(** [parse_fuse_path] on a first component followed by a separator. *)
Lemma parse_component_rest c rest rt :
  strchr c slash = None -> c <> "" ->
  value (parse_fuse_path (c ++ String slash rest)) rt =
    if (strlen c <? 36)%nat then ParseError else Parsed (prefix c 36) rest.
Proof.
  intros Hno Hne.
  rewrite (parse_separator _ (strlen c));
    rewrite (component_not_stripped _ _ Hno Hne).
  - destruct (Nat.ltb_spec (strlen c) 36); [reflexivity|].
    now rewrite advance_past_separator, prefix_append_le.
  - now apply strchr_append.
Qed.

(** [parse_fuse_path] on a first component and nothing else. *)
Lemma parse_component c rt :
  strchr c slash = None ->
  value (parse_fuse_path c) rt =
    if (strlen c <? 36)%nat then ParseError else Parsed (prefix c 36) "/".
Proof.
  intros Hno. rewrite parse_no_separator;
    rewrite (token_no_leading_slash _ Hno); [reflexivity|exact Hno].
Qed.

Lemma component_begins c t :
  strchr c slash = None -> c <> "" -> begins_with_slash (c ++ t) = false.
Proof.
  intros Hno Hne. destruct c as [|a c]; [congruence|]. simpl in *.
  now destruct (Ascii.eqb a slash).
Qed.

Lemma slash_free_begins c :
  strchr c slash = None -> begins_with_slash c = false.
Proof.
  destruct c as [|a c]; simpl; [reflexivity|].
  now destruct (Ascii.eqb a slash).
Qed.

(** X1: a first component longer than 36 characters is accepted and cut
    to its first 36 characters; what follows the separator is the
    in-repository path, and "/" when there is no separator. *)
Theorem parse_long_component_truncated c rest rt :
  strchr c slash = None ->
  (36 <= strlen c)%nat ->
  value (parse_fuse_path ("/" ++ c ++ "/" ++ rest)) rt
    = Parsed (prefix c 36) rest /\
  value (parse_fuse_path (c ++ "/" ++ rest)) rt = Parsed (prefix c 36) rest /\
  value (parse_fuse_path ("/" ++ c)) rt = Parsed (prefix c 36) "/" /\
  value (parse_fuse_path c) rt = Parsed (prefix c 36) "/".
Proof.
  intros Hno Hlen.
  assert (Hne : c <> "") by (intros ->; simpl in Hlen; lia).
  assert (Hlt : (strlen c <? 36)%nat = false) by now apply Nat.ltb_ge.
  assert (H1 : value (parse_fuse_path (c ++ "/" ++ rest)) rt
               = Parsed (prefix c 36) rest).
  { change (c ++ "/" ++ rest) with (c ++ String slash rest).
    now rewrite parse_component_rest, Hlt. }
  assert (H2 : value (parse_fuse_path c) rt = Parsed (prefix c 36) "/").
  { now rewrite parse_component, Hlt. }
  repeat split; try assumption.
  - change ("/" ++ c ++ "/" ++ rest) with (String slash (c ++ "/" ++ rest)).
    rewrite parse_leading_slash; [exact H1|now apply component_begins].
  - change ("/" ++ c) with (String slash c).
    rewrite parse_leading_slash; [exact H2|now apply slash_free_begins].
Qed.

Lemma parse_long_component_truncated_witness :
  value (parse_fuse_path ("/" ++ Demo.rid ++ "-old" ++ "/" ++ "docs")) Demo.rt0
    = Parsed Demo.rid "docs".
Proof.
  apply (parse_long_component_truncated (Demo.rid ++ "-old") "docs" Demo.rt0).
  - reflexivity.
  - vm_compute. lia.
Defined.

(** X2: a path whose first component has fewer than 36 characters does
    not resolve, however long the whole path is. *)
Theorem parse_short_component_fails c rest rt :
  strchr c slash = None ->
  (strlen c < 36)%nat ->
  value (parse_fuse_path ("/" ++ c ++ "/" ++ rest)) rt = ParseError.
Proof.
  intros Hno Hlen.
  rewrite (parse_separator _ (strlen c)).
  - now apply Nat.ltb_lt in Hlen as ->.
  - change ("/" ++ c ++ "/" ++ rest) with (String slash (c ++ String slash rest)).
    rewrite skip_leading_slash_cons. now apply strchr_append.
Qed.

Lemma parse_short_component_fails_witness :
  value (parse_fuse_path
           ("/" ++ "short-id" ++ "/" ++ Demo.rid ++ "/docs/readme.txt"))
        Demo.rt0 = ParseError.
Proof.
  apply (parse_short_component_fails "short-id").
  - reflexivity.
  - vm_compute. lia.
Defined.

(** The first component of a path that resolves: it has no separator and
    at least 36 characters, and the path is that component alone or that
    component, a separator and the in-repository path. *)
Lemma parse_shape path rt id rp :
  value (parse_fuse_path path) rt = Parsed id rp ->
  exists comp,
    strchr comp slash = None /\
    (36 <= strlen comp)%nat /\
    id = prefix comp 36 /\
    (skip_leading_slash path = comp /\ rp = "/" \/
     skip_leading_slash path = comp ++ "/" ++ rp).
Proof.
  destruct (strchr (skip_leading_slash path) slash) as [p|] eqn:E.
  - rewrite (parse_separator _ p) by exact E.
    destruct (Nat.ltb_spec p 36) as [|Hp]; [discriminate|].
    intros [= <- <-]. destruct (strchr_split _ _ _ E) as (H1 & H2 & H3).
    exists (prefix (skip_leading_slash path) p).
    rewrite H2, prefix_prefix by exact Hp.
    repeat split; try assumption. now right.
  - rewrite parse_no_separator by exact E.
    destruct (Nat.ltb_spec (strlen (skip_leading_slash path)) 36) as [|Hp];
      [discriminate|].
    intros [= <- <-]. exists (skip_leading_slash path).
    repeat split; try assumption. now left.
Qed.

(** X3: whatever the path, an identifier the resolver returns has exactly
    36 characters and no separator; it is the first 36 characters of the
    path after its leading separator. *)
Theorem parse_result_is_token path rt id rp :
  value (parse_fuse_path path) rt = Parsed id rp ->
  repo_id_token id /\ id = prefix (skip_leading_slash path) 36.
Proof.
  intros H. destruct (parse_shape _ _ _ _ H) as (comp & Hno & Hlen & -> & Hs).
  repeat split.
  - now apply strlen_prefix.
  - now apply strchr_prefix_none.
  - destruct Hs as [[-> _]| ->]; [reflexivity|].
    now rewrite prefix_append_le.
Qed.

Lemma parse_result_is_token_witness :
  repo_id_token Demo.rid /\
  Demo.rid = prefix (skip_leading_slash ("/" ++ Demo.rid ++ "-old/docs")) 36.
Proof.
  apply (parse_result_is_token ("/" ++ Demo.rid ++ "-old/docs") Demo.rt0
           Demo.rid "docs").
  reflexivity.
Defined.

(** X4: a path that resolves is, after its leading separator, a
    separator-free component of at least 36 characters whose first 36 are
    the identifier, either alone (the in-repository path is then "/") or
    followed by a separator and the in-repository path. *)
Theorem parse_success_shape path rt id rp :
  value (parse_fuse_path path) rt = Parsed id rp ->
  exists extra,
    strchr extra slash = None /\
    strlen id = 36%nat /\
    (skip_leading_slash path = id ++ extra /\ rp = "/" \/
     skip_leading_slash path = id ++ extra ++ "/" ++ rp).
Proof.
  intros H. destruct (parse_shape _ _ _ _ H) as (comp & Hno & Hlen & -> & Hs).
  exists (advance comp 36). split; [now apply strchr_advance_none|].
  split; [now apply strlen_prefix|].
  assert (Hc : comp = prefix comp 36 ++ advance comp 36)
    by apply prefix_advance.
  destruct Hs as [[Hs ->]|Hs]; [left|right]; rewrite Hs.
  - split; [exact Hc|reflexivity].
  - rewrite Hc at 1. clear.
    generalize (prefix comp 36) as a, (advance comp 36) as b, ("/" ++ rp) as d.
    intros a b d. induction a as [|x a IH]; simpl; [reflexivity|].
    change (String x ((a ++ b) ++ d) = String x (a ++ b ++ d)).
    now rewrite IH.
Qed.

Lemma parse_success_shape_witness :
  exists extra,
    strchr extra slash = None /\
    strlen Demo.rid = 36%nat /\
    (skip_leading_slash ("/" ++ Demo.rid ++ "-old/docs") = Demo.rid ++ extra
       /\ "docs" = "/" \/
     skip_leading_slash ("/" ++ Demo.rid ++ "-old/docs")
       = Demo.rid ++ extra ++ "/" ++ "docs").
Proof.
  apply (parse_success_shape ("/" ++ Demo.rid ++ "-old/docs") Demo.rt0
           Demo.rid "docs").
  reflexivity.
Defined.

(** X5: joining the identifier and the in-repository path of a resolved
    path with a separator gives a path that resolves to the same pair. *)
Theorem parse_rejoin path rt id rp :
  value (parse_fuse_path path) rt = Parsed id rp ->
  forall rt',
    value (parse_fuse_path ("/" ++ id ++ "/" ++ rp)) rt' = Parsed id rp /\
    value (parse_fuse_path (id ++ "/" ++ rp)) rt' = Parsed id rp.
Proof.
  intros H rt'. destruct (parse_result_is_token _ _ _ _ H) as [Htok _].
  assert (H1 : value (parse_fuse_path (id ++ "/" ++ rp)) rt' = Parsed id rp)
    by now apply parse_token_rest.
  split; [|exact H1].
  change ("/" ++ id ++ "/" ++ rp) with (String slash (id ++ "/" ++ rp)).
  rewrite parse_leading_slash; [exact H1|].
  destruct Htok as [Hlen Hno]. apply component_begins; [exact Hno|].
  intros ->. discriminate.
Qed.

Lemma parse_rejoin_witness :
  value (parse_fuse_path ("/" ++ Demo.rid ++ "/" ++ "/")) Demo.rt0
    = Parsed Demo.rid "/".
Proof.
  apply (parse_rejoin ("/" ++ Demo.rid) Demo.rt0 Demo.rid "/").
  reflexivity.
Defined.

(** X6: a failed resolution allocates nothing and writes one warning
    that names the path after its leading separator; a successful one
    writes no warning and leaves exactly two strings to be freed. *)
Theorem parse_accounting path rt :
  after (parse_fuse_path path) rt =
    match value (parse_fuse_path path) rt with
    | ParseError =>
        mkRuntime (live_strings rt) (repo_refs rt) (commit_refs rt)
          (log rt ++ [("Invalid input path: " ++ skip_leading_slash path
                       ++ "." ++ newline)%string])%list
    | Parsed _ _ =>
        mkRuntime (S (S (live_strings rt))) (repo_refs rt) (commit_refs rt)
          (log rt)
    end.
Proof. run_ops. Qed.

End ResolverFacts.

(** * Further properties of open and read *)

Section AdapterFacts.

(** X7: a request that is not read-only is turned away before anything
    is looked at: open and read answer [-EACCES] and leave the runtime,
    the file-info structure and the buffer exactly as they were. *)
Theorem gate_rejects_untouched seaf path buf size offset info rt :
  Z.land (flags info) 3 <> O_RDONLY ->
  seaf_fuse_open seaf path info rt = ((- EACCES, info), rt) /\
  seaf_fuse_read seaf path buf size offset info rt = ((- EACCES, buf), rt).
Proof.
  intros H. apply Z.eqb_neq in H.
  unfold seaf_fuse_open, seaf_fuse_read. rewrite H. split; reflexivity.
Qed.

Lemma gate_rejects_untouched_witness :
  seaf_fuse_open Demo.session ("/" ++ Demo.rid ++ "/docs/readme.txt")
    (mkInfo 2 0) Demo.rt0 = ((- EACCES, mkInfo 2 0), Demo.rt0) /\
  seaf_fuse_read Demo.session ("/" ++ Demo.rid ++ "/docs/readme.txt")
    [] 16 0 (mkInfo 2 0) Demo.rt0 = ((- EACCES, []), Demo.rt0).
Proof. apply gate_rejects_untouched. vm_compute. discriminate. Defined.

(** X8: open looks at the two low bits of the flags and at nothing else
    of the file-info structure: two structures that agree on those bits
    get the same status and leave the same runtime. *)
Theorem open_flags_low_bits seaf path info1 info2 rt :
  Z.land (flags info1) 3 = Z.land (flags info2) 3 ->
  fst (value (seaf_fuse_open seaf path info1) rt)
  = fst (value (seaf_fuse_open seaf path info2) rt) /\
  after (seaf_fuse_open seaf path info1) rt
  = after (seaf_fuse_open seaf path info2) rt.
Proof.
  intros H. unfold seaf_fuse_open, value, after. rewrite H.
  destruct (negb (Z.land (flags info2) 3 =? O_RDONLY)); [split; reflexivity|].
  run_ops.
Qed.

Lemma open_flags_low_bits_witness :
  fst (value (seaf_fuse_open Demo.session ("/" ++ Demo.rid ++ "/docs/readme.txt")
                (mkInfo 34816 7)) Demo.rt0)
  = fst (value (seaf_fuse_open Demo.session
                  ("/" ++ Demo.rid ++ "/docs/readme.txt") Demo.rdonly) Demo.rt0).
Proof.
  apply (open_flags_low_bits Demo.session ("/" ++ Demo.rid ++ "/docs/readme.txt")
           (mkInfo 34816 7) Demo.rdonly Demo.rt0).
  reflexivity.
Defined.

(** X9: on a path that does not parse, a read-only open or read answers
    [-ENOENT] without consulting a store; the runtime is the one
    [parse_fuse_path] leaves, so nothing is held on return. *)
Theorem unparseable_path_enoent seaf path buf size offset info rt :
  Z.land (flags info) 3 = O_RDONLY ->
  value (parse_fuse_path path) rt = ParseError ->
  seaf_fuse_open seaf path info rt
    = ((- ENOENT, info), after (parse_fuse_path path) rt) /\
  seaf_fuse_read seaf path buf size offset info rt
    = ((- ENOENT, buf), after (parse_fuse_path path) rt) /\
  holdings (after (parse_fuse_path path) rt) = holdings rt.
Proof.
  intros Hro Hp. apply Z.eqb_eq in Hro.
  split; [|split].
  - unfold seaf_fuse_open, value, after, bind in *. rewrite Hro. simpl.
    destruct (parse_fuse_path path rt) as [v rt1]. simpl in *. now subst v.
  - unfold seaf_fuse_read, value, after, bind in *. rewrite Hro. simpl.
    destruct (parse_fuse_path path rt) as [v rt1]. simpl in *. now subst v.
  - rewrite parse_accounting, Hp. reflexivity.
Qed.

Lemma unparseable_path_enoent_witness :
  seaf_fuse_open Demo.session "/" Demo.rdonly Demo.rt0
    = ((- ENOENT, Demo.rdonly), after (parse_fuse_path "/") Demo.rt0).
Proof.
  apply (unparseable_path_enoent Demo.session "/" [] 0 0 Demo.rdonly Demo.rt0);
    reflexivity.
Defined.

(** X10: open answers 0, [-ENOENT] or [-EACCES] and nothing else, and on
    every exit the file-info structure is as it was given. *)
Theorem open_status_range seaf path info rt :
  (fst (value (seaf_fuse_open seaf path info) rt) = 0 \/
   fst (value (seaf_fuse_open seaf path info) rt) = - ENOENT \/
   fst (value (seaf_fuse_open seaf path info) rt) = - EACCES) /\
  snd (value (seaf_fuse_open seaf path info) rt) = info.
Proof. run_ops; auto. Qed.

(** X11: open answers 0 only for a read-only request on a path that
    parses, whose repository is registered, whose head commit is in the
    commit store and which the tree walk resolves to a regular file. *)
Theorem open_success_inversion seaf path info rt :
  fst (value (seaf_fuse_open seaf path info) rt) = 0 ->
  Z.land (flags info) 3 = O_RDONLY /\
  exists id rp r c oid mode,
    value (parse_fuse_path path) rt = Parsed id rp /\
    repo_mgr seaf !! id = Some r /\
    commit_mgr seaf !! commit_id (head r) = Some c /\
    fs_path_to_obj_id seaf (root_id c) rp = Some (oid, mode) /\
    S_ISREG mode = true.
Proof.
  unfold seaf_fuse_open, value, bind.
  destruct (Z.eqb_spec (Z.land (flags info) 3) O_RDONLY) as [Hro|];
    [|discriminate].
  cbn [negb]. cbv beta iota.
  destruct (parse_fuse_path path rt) as [[|id rp] rt1]; [discriminate|].
  cbn [fst]. unfold seaf_repo_manager_get_repo.
  destruct (repo_mgr seaf !! id) as [r|] eqn:Hr; [|discriminate].
  unfold seaf_commit_manager_get_commit.
  destruct (commit_mgr seaf !! commit_id (head r)) as [c|] eqn:Hc;
    [|discriminate].
  unfold seaf_fs_manager_path_to_obj_id.
  destruct (fs_path_to_obj_id seaf (root_id c) rp) as [[oid mode]|] eqn:Hw;
    [|discriminate].
  simpl. destruct (S_ISREG mode) eqn:Hm; [|discriminate].
  intros _. split; [exact Hro|].
  exists id, rp, r, c, oid, mode. repeat split; assumption.
Qed.

Lemma open_success_inversion_witness :
  Z.land (flags Demo.rdonly) 3 = O_RDONLY /\
  exists id rp r c oid mode,
    value (parse_fuse_path ("/" ++ Demo.rid ++ "/docs/readme.txt")) Demo.rt0
      = Parsed id rp /\
    repo_mgr Demo.session !! id = Some r /\
    commit_mgr Demo.session !! commit_id (head r) = Some c /\
    fs_path_to_obj_id Demo.session (root_id c) rp = Some (oid, mode) /\
    S_ISREG mode = true.
Proof.
  apply (open_success_inversion Demo.session ("/" ++ Demo.rid ++ "/docs/readme.txt")
           Demo.rdonly Demo.rt0).
  reflexivity.
Defined.

(** X12: open answers [-EACCES] in two cases only: the request is not
    read-only, or the path resolved to an object that is not a regular
    file. *)
Theorem open_eacces_inversion seaf path info rt :
  fst (value (seaf_fuse_open seaf path info) rt) = - EACCES ->
  Z.land (flags info) 3 <> O_RDONLY \/
  exists id rp r c oid mode,
    value (parse_fuse_path path) rt = Parsed id rp /\
    repo_mgr seaf !! id = Some r /\
    commit_mgr seaf !! commit_id (head r) = Some c /\
    fs_path_to_obj_id seaf (root_id c) rp = Some (oid, mode) /\
    S_ISREG mode = false.
Proof.
  unfold seaf_fuse_open, value, bind.
  destruct (Z.eqb_spec (Z.land (flags info) 3) O_RDONLY) as [Hro|Hro];
    [|now left].
  cbn [negb]. cbv beta iota.
  destruct (parse_fuse_path path rt) as [[|id rp] rt1]; [discriminate|].
  cbn [fst]. unfold seaf_repo_manager_get_repo.
  destruct (repo_mgr seaf !! id) as [r|] eqn:Hr; [|discriminate].
  unfold seaf_commit_manager_get_commit.
  destruct (commit_mgr seaf !! commit_id (head r)) as [c|] eqn:Hc;
    [|discriminate].
  unfold seaf_fs_manager_path_to_obj_id.
  destruct (fs_path_to_obj_id seaf (root_id c) rp) as [[oid mode]|] eqn:Hw;
    [|discriminate].
  simpl. destruct (S_ISREG mode) eqn:Hm; [discriminate|].
  intros _. right.
  exists id, rp, r, c, oid, mode. repeat split; assumption.
Qed.

Lemma open_eacces_inversion_witness :
  Z.land (flags Demo.rdonly) 3 <> O_RDONLY \/
  exists id rp r c oid mode,
    value (parse_fuse_path ("/" ++ Demo.rid ++ "/docs")) Demo.rt0
      = Parsed id rp /\
    repo_mgr Demo.session !! id = Some r /\
    commit_mgr Demo.session !! commit_id (head r) = Some c /\
    fs_path_to_obj_id Demo.session (root_id c) rp = Some (oid, mode) /\
    S_ISREG mode = false.
Proof.
  apply (open_eacces_inversion Demo.session ("/" ++ Demo.rid ++ "/docs")
           Demo.rdonly Demo.rt0).
  reflexivity.
Defined.

(** X13: open writes exactly one warning when it answers [-ENOENT] and
    none otherwise; what was in the log before stays in front. *)
Theorem open_warns_iff_enoent seaf path info rt :
  exists ws,
    log (after (seaf_fuse_open seaf path info) rt) = (log rt ++ ws)%list /\
    length ws =
      if fst (value (seaf_fuse_open seaf path info) rt) =? - ENOENT
      then 1%nat else 0%nat.
Proof.
  run_ops;
    first [ exists []; split; [now rewrite app_nil_r|reflexivity]
          | eexists [_]; split; reflexivity ].
Qed.

(** X14: a read-only read answers [-ENOENT] and leaves the buffer as it
    was when the path does not parse, the repository is not registered,
    the head commit is not in the commit store, the path has no file id
    or the file id has no file object; otherwise its answer is the one of
    [read_file] on that file object. *)
Theorem read_read_only_outcome seaf path buf size offset info rt :
  Z.land (flags info) 3 = O_RDONLY ->
  let result := value (seaf_fuse_read seaf path buf size offset info) rt in
  (value (parse_fuse_path path) rt = ParseError ->
     result = (- ENOENT, buf)) /\
  (forall id rp, value (parse_fuse_path path) rt = Parsed id rp ->
     (repo_mgr seaf !! id = None -> result = (- ENOENT, buf)) /\
     (forall r, repo_mgr seaf !! id = Some r ->
        (commit_mgr seaf !! commit_id (head r) = None ->
           result = (- ENOENT, buf)) /\
        (forall c, commit_mgr seaf !! commit_id (head r) = Some c ->
           (fs_seafile_id_by_path seaf (root_id c) rp = None ->
              result = (- ENOENT, buf)) /\
           (forall fid,
              fs_seafile_id_by_path seaf (root_id c) rp = Some fid ->
              (fs_seafile seaf fid = None -> result = (- ENOENT, buf)) /\
              (forall f, fs_seafile seaf fid = Some f ->
                 result = value (read_file f buf size offset info) rt))))).
Proof.
  intros Hro result. subst result. apply Z.eqb_eq in Hro.
  unfold seaf_fuse_read, value, bind. rewrite Hro. cbn [negb]. cbv beta iota.
  destruct (parse_fuse_path path rt) as [v rt1]. cbn [fst].
  split; [intros ->; reflexivity|].
  intros id rp ->. unfold seaf_repo_manager_get_repo.
  split; [intros ->; reflexivity|].
  intros r ->. unfold seaf_commit_manager_get_commit.
  split; [intros ->; reflexivity|].
  intros c ->. unfold seaf_fs_manager_get_seafile_id_by_path.
  split; [intros ->; reflexivity|].
  intros fid ->. unfold seaf_fs_manager_get_seafile.
  split; intros; simplify_eq/=; run_ops.
Qed.

Lemma read_read_only_outcome_witness :
  value (seaf_fuse_read Demo.session ("/" ++ Demo.rid ++ "/docs") [] 16 0
           Demo.rdonly) Demo.rt0 = (- ENOENT, []).
Proof.
  refine (proj1 (proj2 (proj2 (proj2 (read_read_only_outcome
    Demo.session ("/" ++ Demo.rid ++ "/docs") [] 16 0 Demo.rdonly Demo.rt0
    eq_refl) Demo.rid "docs" eq_refl) _ eq_refl) _ eq_refl) eq_refl).
Defined.

(** X15: on every exit read has given back the strings and references it
    took, and it has written at most one warning behind the log it
    found. *)
Theorem read_releases_every_exit seaf path buf size offset info rt :
  holdings (after (seaf_fuse_read seaf path buf size offset info) rt)
    = holdings rt /\
  exists ws,
    log (after (seaf_fuse_read seaf path buf size offset info) rt)
      = (log rt ++ ws)%list /\
    (length ws <= 1)%nat.
Proof.
  split; [apply read_releases|].
  run_ops;
    first [ exists []; split; [now rewrite app_nil_r|simpl; lia]
          | eexists [_]; split; [reflexivity|simpl; lia] ].
Qed.

(** X16: whenever open answers something other than [-EACCES], it has
    given back the strings and references it took. *)
Theorem open_releases_unless_eacces seaf path info rt :
  fst (value (seaf_fuse_open seaf path info) rt) <> - EACCES ->
  holdings (after (seaf_fuse_open seaf path info) rt) = holdings rt.
Proof.
  intros H. destruct (open_releases_or_keeps seaf path info rt) as [E|[E _]];
    [exact E|contradiction].
Qed.

Lemma open_releases_unless_eacces_witness :
  holdings (after (seaf_fuse_open Demo.session ("/" ++ Demo.rid ++ "/nope")
                     Demo.rdonly) Demo.rt0) = holdings Demo.rt0.
Proof.
  apply (open_releases_unless_eacces Demo.session ("/" ++ Demo.rid ++ "/nope")
           Demo.rdonly Demo.rt0).
  vm_compute. discriminate.
Defined.

End AdapterFacts.
